(** * Pulse counter for the Eltako wind sensor: model and properties

    Shallow embedding of [eltako-windsensor-ws.c], an Arduino Uno sketch.
    The globals of the sketch become one record, the interrupt handler
    [countPulse] and the statements of [loop] become state transformers,
    and the peripherals the sketch talks to (LED pin, interrupt enable
    flag, serial port) are fields of the same record.

    Integer widths are those of the AVR target the sketch is written for
    (its comments name 65535 as the largest [unsigned int]):
    [unsigned int] has 16 bits, [unsigned long] has 32 bits, [float] is
    IEEE 754 binary32. *)

From Stdlib Require Import ZArith Lia List Bool String Sorted.
From Stdlib Require Import QArith Qabs.
From Stdlib Require Import Reals Qreals Lra.
From Stdlib Require Lqa.
From Stdlib Require Import Floats.SpecFloat.
Import ListNotations.

Local Open Scope Z_scope.

(** ** Machine integers *)

(** <limits.h> on the AVR. *)
Definition UINT_MAX : Z := 65535.
Definition ULONG_MAX : Z := 4294967295.

(** Reduction of a mathematical integer to [unsigned int] / [unsigned long]. *)
Definition wrap16 (x : Z) : Z := x mod (UINT_MAX + 1).
Definition wrap32 (x : Z) : Z := x mod (ULONG_MAX + 1).

Definition is_uint (x : Z) : Prop := 0 <= x <= UINT_MAX.
Definition is_ulong (x : Z) : Prop := 0 <= x <= ULONG_MAX.

(** Arduino.h *)
Definition LOW : Z := 0.
Definition HIGH : Z := 1.

(** ** Configuration constants of the sketch *)

Definition measurementDelaySeconds : Z := 60.
Definition debounceDelayMillis : Z := 10.

(** ** Serial port

    The sketch only ever writes to the port; the model records the calls
    in the order they are made. *)

Definition float32 := spec_float.

Inductive serial_op : Type :=
| SerialPrint (s : string)
| SerialPrintln (s : string)
| SerialPrintlnUInt (n : Z)
| SerialPrintlnFloat (x : float32) (decimals : Z).

(** ** Program state

    [pulseCount], [lastPulse] and [ledState] are the globals of the
    sketch.  [ledPin] is the level last written to LED_BUILTIN,
    [interruptsOn] the global interrupt enable flag toggled by
    interrupts()/noInterrupts(), [serial] the log of the serial port
    (oldest call first). *)
Record state : Type := mkState {
  pulseCount : Z;
  lastPulse : Z;
  ledState : Z;
  ledPin : Z;
  interruptsOn : bool;
  serial : list serial_op
}.

(** The globals as initialised at their declarations; the interrupt flag
    is set when an Arduino sketch starts. *)
Definition boot : state :=
  {| pulseCount := 0;
     lastPulse := 0;
     ledState := LOW;
     ledPin := LOW;
     interruptsOn := true;
     serial := [] |}.

(** ** The interrupt handler *)

(** Lines 132-140: the time since the last accepted pulse, in
    [unsigned long] arithmetic. *)
Definition timeSinceLastPulse (time last : Z) : Z :=
  if last <=? time
  then wrap32 (time - last)
  else wrap32 (wrap32 (ULONG_MAX - last) + time).

(** The test of line 142 negated: the edge passes the debounce filter. *)
Definition accepted (time last : Z) : bool :=
  negb (timeSinceLastPulse time last <=? debounceDelayMillis).

Definition toggle (led : Z) : Z := if led =? HIGH then LOW else HIGH.

(** [countPulse], with the value read from millis() as argument. *)
Definition countPulse (time : Z) (st : state) : state :=
  if timeSinceLastPulse time (lastPulse st) <=? debounceDelayMillis
  then st
  else
    let led := toggle (ledState st) in
    {| pulseCount := wrap16 (pulseCount st + 1);
       lastPulse := time;
       ledState := led;
       ledPin := led;
       interruptsOn := interruptsOn st;
       serial := serial st |}.

(** ** The clock

    millis() counts the milliseconds since the board started and, as the
    comment in [countPulse] says, overflows back to 0 after ULONG_MAX.
    [T] is the uptime in milliseconds as a mathematical integer. *)
Definition millis (T : Z) : Z := wrap32 T.

(** The number of clock ticks from reading [last] to reading [time] on a
    counter that overflows from ULONG_MAX to 0. *)
Definition ticks_between (last time : Z) : Z := (time - last) mod (ULONG_MAX + 1).

(** A falling edge on the sensor pin at uptime [T], seen by the handler:
    [countPulse] reads the clock once, at its start. *)
Definition isr (T : Z) (st : state) : state := countPulse (millis T) st.

(** The uptimes, out of [Ts], of the edges that pass the debounce filter
    when the handler is run on each of them in turn, [last] being the
    value of [lastPulse] before the first one. *)
Fixpoint pulses (last : Z) (Ts : list Z) : list Z :=
  match Ts with
  | [] => []
  | T :: Ts' =>
      if accepted (millis T) last
      then T :: pulses (millis T) Ts'
      else pulses last Ts'
  end.

(** The handler run on a list of edges, oldest first. *)
Definition deliver (Ts : list Z) (st : state) : state :=
  fold_left (fun s T => isr T s) Ts st.

(** ** Timing of edge sequences *)

(** [b] is strictly more than the debounce interval after [a]. *)
Definition apart (a b : Z) : Prop := a + debounceDelayMillis < b.

(** Each edge of [Ts] is strictly more than the debounce interval after
    the one before it, the first one after [T0]. *)
Fixpoint spaced_after (T0 : Z) (Ts : list Z) : Prop :=
  match Ts with
  | [] => True
  | T :: Ts' => apart T0 T /\ spaced_after T Ts'
  end.

(** The same with no condition on the first edge. *)
Definition spaced (Ts : list Z) : Prop :=
  match Ts with
  | [] => True
  | T :: Ts' => spaced_after T Ts'
  end.

(** [T] lies in the interval of length [debounceDelayMillis] from [A]. *)
Definition within (A T : Z) : bool :=
  (A <=? T) && (T <=? A + debounceDelayMillis).

(** The number of times the clock has overflowed at uptime [T]. *)
Definition epoch (T : Z) : Z := T / (ULONG_MAX + 1).

(** ** Floating point *)

Definition prec32 : Z := 24.
Definition emax32 : Z := 128.

Definition fmul : float32 -> float32 -> float32 := SFmul prec32 emax32.
Definition fdiv : float32 -> float32 -> float32 := SFdiv prec32 emax32.

(** Conversion of an integer to [float], as the casts and the usual
    arithmetic conversions of the sketch do. *)
Definition float_of_Z (n : Z) : float32 := binary_normalize prec32 emax32 n 0 false.

(** The literal 0.5f. *)
Definition half : float32 := binary_normalize prec32 emax32 1 (-1) false.

(** Comparison [x >= y] on floats. *)
Definition fge (x y : float32) : bool := SFleb y x.

Definition is_finite (x : float32) : bool :=
  match x with
  | S754_finite _ _ _ | S754_zero _ => true
  | _ => false
  end.

(** The rational number a finite float stands for. *)
Definition SF2Q (x : float32) : Q :=
  match x with
  | S754_finite s m e => (inject_Z (cond_Zopp s (Zpos m)) * Qpower 2 e)%Q
  | _ => 0%Q
  end.

(** Lines 83-84. *)
Definition maxImpulsesPerSecond : float32 :=
  fmul (fdiv (float_of_Z 1000) (float_of_Z debounceDelayMillis)) half.

(** Lines 170-173, as functions of the value of [pulseCount]. *)
Definition pulsesPerSecond (count : Z) : float32 :=
  fdiv (float_of_Z count) (float_of_Z measurementDelaySeconds).

Definition pulsesPerMinute (count : Z) : float32 :=
  fdiv (fmul (float_of_Z count) (float_of_Z 60)) (float_of_Z measurementDelaySeconds).

(** [f z && f (z + 1) && ...], [n] values in all. *)
Fixpoint all_from (f : Z -> bool) (z : Z) (n : nat) : bool :=
  match n with
  | O => true
  | S n' => f z && all_from f (z + 1) n'
  end.

(** What the rates computed from [count] are checked for: both are
    finite; pulsesPerMinute is [count * 60 / measurementDelaySeconds];
    pulsesPerSecond is [count / measurementDelaySeconds] up to the
    rounding of one float division, and is that quotient when the
    division leaves no remainder; and the test [>= maxImpulsesPerSecond]
    on floats decides as it does on the numbers, which is at 3000
    pulses. *)
Definition rates_ok (count : Z) : bool :=
  let pps := pulsesPerSecond count in
  let ppm := pulsesPerMinute count in
  let qs := (inject_Z count / inject_Z measurementDelaySeconds)%Q in
  let qm := (inject_Z count * 60 / inject_Z measurementDelaySeconds)%Q in
  is_finite pps && is_finite ppm
  && Qeq_bool (SF2Q ppm) qm
  && Qle_bool (Qabs (SF2Q pps - qs)) (qs * (1 # 16777216))
  && (if count mod measurementDelaySeconds =? 0 then Qeq_bool (SF2Q pps) qs else true)
  && Bool.eqb (fge pps maxImpulsesPerSecond)
              (Qle_bool (SF2Q maxImpulsesPerSecond) (SF2Q pps))
  && Bool.eqb (fge pps maxImpulsesPerSecond) (3000 <=? count).

(** The real number a finite float stands for. *)
Definition SF2R (x : float32) : R := Q2R (SF2Q x).

(** ** Display precision *)

(** log10() and ceil() of <math.h> are modelled by the real functions
    they compute; abs() is the macro of Arduino.h,
    [((x)>0?(x):-(x))], which works on floats.  The code computes the
    logarithm in binary32, so a result about this definition carries
    over to the code only where the rounding of log10() cannot move the
    value across an integer. *)
Definition log10 (x : R) : R := Rlog 10 x.

(** Lines 204-214. *)
Definition numberOfDecimalsNeeded (smallestNumber : float32) : Z :=
  Zceil (Rabs (log10 (SF2R smallestNumber))).

(** Lines 183-184. *)
Definition displayedDecimals : Z :=
  numberOfDecimalsNeeded (fdiv (float_of_Z 1) maxImpulsesPerSecond).

(** ** setup() and loop() *)

(** Lines 90-122.  The pin and serial configuration has no counterpart
    in the model; what remains is noInterrupts() and the initial write
    to the LED. *)
Definition setup (st : state) : state :=
  {| pulseCount := pulseCount st;
     lastPulse := lastPulse st;
     ledState := ledState st;
     ledPin := ledState st;
     interruptsOn := false;
     serial := serial st |}.

Definition set_pulseCount (n : Z) (st : state) : state :=
  {| pulseCount := n;
     lastPulse := lastPulse st;
     ledState := ledState st;
     ledPin := ledPin st;
     interruptsOn := interruptsOn st;
     serial := serial st |}.

Definition set_interrupts (b : bool) (st : state) : state :=
  {| pulseCount := pulseCount st;
     lastPulse := lastPulse st;
     ledState := ledState st;
     ledPin := ledPin st;
     interruptsOn := b;
     serial := serial st |}.

Definition write_serial (ops : list serial_op) (st : state) : state :=
  {| pulseCount := pulseCount st;
     lastPulse := lastPulse st;
     ledState := ledState st;
     ledPin := ledPin st;
     interruptsOn := interruptsOn st;
     serial := serial st ++ ops |}.

Definition error_line : serial_op :=
  SerialPrintln "ERROR: Debounce delay too high for impulse speed!".

Definition separator_line : serial_op :=
  SerialPrintln "-----------------------------------------------".

(** Lines 194-197. *)
Definition range_check (count : Z) : list serial_op :=
  if fge (pulsesPerSecond count) maxImpulsesPerSecond then [error_line] else [].

(** Lines 170-199: what one pass of loop() sends to the serial port when
    it reads [count] from [pulseCount]. *)
Definition report (count : Z) : list serial_op :=
  [ SerialPrint "Pulses measured: ";
    SerialPrintlnUInt count;
    SerialPrint "Pulses per second: ";
    SerialPrintlnFloat (pulsesPerSecond count) displayedDecimals;
    SerialPrint "Pulses per minute: ";
    SerialPrintlnFloat (pulsesPerMinute count) displayedDecimals ]
  ++ range_check count
  ++ [ separator_line ].

(** The statements of loop(), in program order. *)
Inductive stmt : Type :=
| ResetCount          (* line 161: pulseCount = 0 *)
| EnableInterrupts    (* line 163: interrupts() *)
| Delay               (* line 166: delay(...) *)
| DisableInterrupts   (* line 168: noInterrupts() *)
| Report.             (* lines 170-199 *)

Definition exec_stmt (s : stmt) (st : state) : state :=
  match s with
  | ResetCount => set_pulseCount 0 st
  | EnableInterrupts => set_interrupts true st
  | Delay => st
  | DisableInterrupts => set_interrupts false st
  | Report => write_serial (report (pulseCount st)) st
  end.

Definition loop_body : list stmt :=
  [ResetCount; EnableInterrupts; Delay; DisableInterrupts; Report].

(** What happens on the board: the main program executes a statement, or
    the sensor pin falls at uptime [T].  The handler runs on a falling
    edge if interrupts are enabled.  With interrupts disabled it does
    not run, and this machine keeps no record of the edge: it is the
    sketch on an interrupt controller that forgets such a request.  The
    controller's request flag is modelled by [board] below. *)
Inductive event : Type :=
| Step (s : stmt)
| Falling (T : Z).

Definition exec (e : event) (st : state) : state :=
  match e with
  | Step s => exec_stmt s st
  | Falling T => if interruptsOn st then isr T st else st
  end.

Definition run (tr : list event) (st : state) : state :=
  fold_left (fun s e => exec e s) tr st.

(** The falling edges around one pass of loop(), by the place at which
    they arrive. *)
Record arrivals : Type := mkArrivals {
  before_reset : list Z;   (* before line 161 *)
  before_arm : list Z;     (* between lines 161 and 163 *)
  in_window : list Z;      (* after line 163, before line 168 *)
  after_disarm : list Z    (* after line 168, before the report *)
}.

(** One pass of loop() interleaved with the edges of [a]. *)
Definition cycle (a : arrivals) : list event :=
  map Falling (before_reset a)
  ++ [Step ResetCount]
  ++ map Falling (before_arm a)
  ++ [Step EnableInterrupts; Step Delay]
  ++ map Falling (in_window a)
  ++ [Step DisableInterrupts]
  ++ map Falling (after_disarm a)
  ++ [Step Report].

(** The part of [cycle] up to and including interrupts(). *)
Definition cycle_to_arm (a : arrivals) : list event :=
  map Falling (before_reset a)
  ++ [Step ResetCount]
  ++ map Falling (before_arm a)
  ++ [Step EnableInterrupts].

(** loop() with the edges [Ts] arriving during its delay(). *)
Definition loop (Ts : list Z) (st : state) : state :=
  run (cycle (mkArrivals [] [] Ts [])) st.

(** The argument of delay() on line 166, in milliseconds. *)
Definition delayMillis : Z := wrap32 (measurementDelaySeconds * 1000).

(** [a] with one more edge at the start of the window. *)
Definition with_first_edge (T : Z) (a : arrivals) : arrivals :=
  mkArrivals (before_reset a) (before_arm a) (T :: in_window a) (after_disarm a).

(** The statements a trace executes. *)
Definition statements (tr : list event) : list stmt :=
  flat_map (fun e => match e with Step s => [s] | Falling _ => [] end) tr.

(** ** The interrupt request flag

    The sketch disables and enables interrupts; it never clears a
    pending interrupt request.  What becomes of a falling edge that
    arrives while interrupts are disabled is therefore up to the
    interrupt controller.  It may keep the request in a flag and have
    the handler run once interrupts are enabled again ([latch = true]:
    the external interrupt flag of the ATmega328P, the controller of
    the Arduino Uno the sketch is written for), or forget it
    ([latch = false]).  A board is the state of the sketch and the
    request flag. *)
Record board : Type := mkBoard {
  sketch : state;
  pending : bool
}.

(** What happens on the board, each with the uptime it happens at. *)
Inductive occurrence : Type :=
| Runs (T : Z) (s : stmt)
| PinFalls (T : Z).

(** A pending request is served as soon as interrupts are enabled: the
    handler runs and the flag is cleared. *)
Definition serve (T : Z) (b : board) : board :=
  if interruptsOn (sketch b) && pending b
  then mkBoard (isr T (sketch b)) false
  else b.

(** One occurrence.  A request left pending is served first.  A falling
    edge runs the handler if interrupts are enabled; if they are
    disabled it sets the request flag of a controller that latches and
    is forgotten by one that does not. *)
Definition board_step (latch : bool) (o : occurrence) (b : board) : board :=
  match o with
  | Runs T s =>
      let b' := serve T b in
      mkBoard (exec_stmt s (sketch b')) (pending b')
  | PinFalls T =>
      let b' := serve T b in
      if interruptsOn (sketch b')
      then mkBoard (isr T (sketch b')) (pending b')
      else mkBoard (sketch b') (latch || pending b')
  end.

Definition board_run (latch : bool) (os : list occurrence) (b : board) : board :=
  fold_left (fun x o => board_step latch o x) os b.

Definition nonempty {A : Type} (l : list A) : bool :=
  match l with
  | [] => false
  | _ :: _ => true
  end.

(** One pass of loop() that calls interrupts() at uptime [A] and
    noInterrupts() when the delay is over, interleaved with the edges of
    [a]. *)
Definition board_cycle (A : Z) (a : arrivals) : list occurrence :=
  map PinFalls (before_reset a)
  ++ [Runs A ResetCount]
  ++ map PinFalls (before_arm a)
  ++ [Runs A EnableInterrupts; Runs A Delay]
  ++ map PinFalls (in_window a)
  ++ [Runs (A + delayMillis) DisableInterrupts]
  ++ map PinFalls (after_disarm a)
  ++ [Runs (A + delayMillis) Report].

(** The part of [board_cycle] up to and including interrupts(). *)
Definition board_cycle_to_arm (A : Z) (a : arrivals) : list occurrence :=
  map PinFalls (before_reset a)
  ++ [Runs A ResetCount]
  ++ map PinFalls (before_arm a)
  ++ [Runs A EnableInterrupts].

(** ** Several passes of loop() *)

(** The value of [lastPulse] after the handler has run on the edges [Ts],
    [last] being its value before. *)
Definition lastPulse_after (last : Z) (Ts : list Z) : Z :=
  List.last (map millis (pulses last Ts)) last.

(** The tally each of the windows [ws] ends with, the first one starting
    with [lastPulse = last]: [pulseCount] restarts at 0 on line 161,
    [lastPulse] is carried from one window to the next. *)
Fixpoint tallies (last : Z) (ws : list (list Z)) : list Z :=
  match ws with
  | [] => []
  | w :: ws' =>
      wrap16 (Z.of_nat (List.length (pulses last w)))
      :: tallies (lastPulse_after last w) ws'
  end.

(** loop() called once per element of [ws], as the Arduino runtime does
    forever, the pass for [w] receiving the edges [w] during its delay(). *)
Definition loops (ws : list (list Z)) (st : state) : state :=
  fold_left (fun s w => loop w s) ws st.

(** ** What holds of every state the sketch reaches *)

(** The counters are in the range of their types, the LED variable is
    LOW or HIGH, and the LED pin shows it. *)
Definition wellformed (st : state) : Prop :=
  is_uint (pulseCount st)
  /\ is_ulong (lastPulse st)
  /\ (ledState st = LOW \/ ledState st = HIGH)
  /\ ledPin st = ledState st.

(** Closes [Sorted Z.le l] for a list of numerals. *)
Ltac sorted_le := repeat constructor; unfold Z.le; cbn; discriminate.

(** * Properties *)

(** ** Machine arithmetic *)

Lemma wrap32_small (x : Z) : is_ulong x -> wrap32 x = x.
Proof.
  unfold is_ulong, wrap32, ULONG_MAX. intros H.
  apply Z.mod_small. lia.
Qed.

Lemma wrap16_small (x : Z) : is_uint x -> wrap16 x = x.
Proof.
  unfold is_uint, wrap16, UINT_MAX. intros H.
  apply Z.mod_small. lia.
Qed.

Lemma wrap16_range (x : Z) : is_uint (wrap16 x).
Proof.
  unfold is_uint, wrap16, UINT_MAX.
  pose proof (Z.mod_pos_bound x (65535 + 1)). lia.
Qed.

Lemma millis_range (T : Z) : is_ulong (millis T).
Proof.
  unfold is_ulong, millis, wrap32, ULONG_MAX.
  pose proof (Z.mod_pos_bound T (4294967295 + 1)). lia.
Qed.

Lemma millis_small (T : Z) : is_ulong T -> millis T = T.
Proof. apply wrap32_small. Qed.

(** ** Elapsed time, as the handler computes it *)

(** No intermediate result of lines 132-140 overflows: on clock readings
    the wrapped operations are the mathematical ones. *)
Lemma timeSinceLastPulse_forward (time last : Z) :
  is_ulong time -> is_ulong last -> last <= time ->
  timeSinceLastPulse time last = time - last.
Proof.
  intros Ht Hl Hle. unfold timeSinceLastPulse.
  apply Z.leb_le in Hle. rewrite Hle.
  apply wrap32_small. apply Z.leb_le in Hle.
  unfold is_ulong in *. lia.
Qed.

Lemma timeSinceLastPulse_wrapped (time last : Z) :
  is_ulong time -> is_ulong last -> time < last ->
  timeSinceLastPulse time last = (ULONG_MAX - last) + time.
Proof.
  intros Ht Hl Hlt. unfold timeSinceLastPulse.
  destruct (last <=? time) eqn:E.
  - apply Z.leb_le in E. lia.
  - unfold is_ulong in *.
    rewrite (wrap32_small (ULONG_MAX - last)) by (unfold is_ulong; lia).
    apply wrap32_small. unfold is_ulong. lia.
Qed.

Lemma ticks_between_forward (last time : Z) :
  is_ulong time -> is_ulong last -> last <= time ->
  ticks_between last time = time - last.
Proof.
  unfold ticks_between, is_ulong, ULONG_MAX. intros Ht Hl Hle.
  apply Z.mod_small. lia.
Qed.

Lemma ticks_between_wrapped (last time : Z) :
  is_ulong time -> is_ulong last -> time < last ->
  ticks_between last time = (ULONG_MAX - last) + time + 1.
Proof.
  unfold ticks_between, is_ulong, ULONG_MAX. intros Ht Hl Hlt.
  symmetry. apply (Z.mod_unique _ _ (-1)); lia.
Qed.

(** Where the clock has not overflowed since [last], the handler's
    elapsed time is the number of ticks. *)
Lemma timeSinceLastPulse_forward_exact (time last : Z) :
  is_ulong time -> is_ulong last -> last <= time ->
  timeSinceLastPulse time last = ticks_between last time.
Proof.
  intros Ht Hl Hle.
  rewrite timeSinceLastPulse_forward, ticks_between_forward; auto.
Qed.

(** Where it has, the handler's elapsed time is one tick short. *)
Lemma timeSinceLastPulse_wrapped_short (time last : Z) :
  is_ulong time -> is_ulong last -> time < last ->
  timeSinceLastPulse time last = ticks_between last time - 1.
Proof.
  intros Ht Hl Hlt.
  rewrite timeSinceLastPulse_wrapped, ticks_between_wrapped; auto. lia.
Qed.

(** In both cases it never exceeds the number of ticks. *)
Lemma timeSinceLastPulse_le_ticks (time last : Z) :
  is_ulong time -> is_ulong last ->
  timeSinceLastPulse time last <= ticks_between last time.
Proof.
  intros Ht Hl. destruct (Z_lt_le_dec time last) as [Hlt | Hle].
  - rewrite timeSinceLastPulse_wrapped_short by auto. lia.
  - rewrite timeSinceLastPulse_forward_exact by auto. lia.
Qed.

(** The ticks between the clock readings of two uptimes never exceed the
    time that has passed. *)
Lemma ticks_between_millis_le (T0 T : Z) :
  T0 <= T -> ticks_between (millis T0) (millis T) <= T - T0.
Proof.
  intros Hle. unfold ticks_between, millis, wrap32.
  rewrite <- Zminus_mod.
  apply Z.mod_le; unfold ULONG_MAX; lia.
Qed.

(** ... and are exactly that time when it is shorter than one period of
    the clock. *)
Lemma ticks_between_millis (T0 T : Z) :
  T0 <= T <= T0 + ULONG_MAX ->
  ticks_between (millis T0) (millis T) = T - T0.
Proof.
  intros Hle. unfold ticks_between, millis, wrap32.
  rewrite <- Zminus_mod.
  apply Z.mod_small; unfold ULONG_MAX in *; lia.
Qed.

Lemma accepted_true_iff (time last : Z) :
  accepted time last = true <-> debounceDelayMillis < timeSinceLastPulse time last.
Proof.
  unfold accepted. rewrite negb_true_iff, Z.leb_gt. tauto.
Qed.

Lemma accepted_false_iff (time last : Z) :
  accepted time last = false <-> timeSinceLastPulse time last <= debounceDelayMillis.
Proof.
  unfold accepted. rewrite negb_false_iff, Z.leb_le. tauto.
Qed.

(** ** The handler *)

Lemma countPulse_discard (time : Z) (st : state) :
  accepted time (lastPulse st) = false -> countPulse time st = st.
Proof.
  intros H. apply accepted_false_iff, Z.leb_le in H.
  unfold countPulse. now rewrite H.
Qed.

Lemma countPulse_accept (time : Z) (st : state) :
  accepted time (lastPulse st) = true ->
  countPulse time st =
    {| pulseCount := wrap16 (pulseCount st + 1);
       lastPulse := time;
       ledState := toggle (ledState st);
       ledPin := toggle (ledState st);
       interruptsOn := interruptsOn st;
       serial := serial st |}.
Proof.
  intros H. apply accepted_true_iff, Z.leb_gt in H.
  unfold countPulse. now rewrite H.
Qed.

Lemma toggle_flips (led : Z) :
  led = LOW \/ led = HIGH ->
  toggle led <> led /\ (toggle led = LOW \/ toggle led = HIGH).
Proof.
  unfold toggle, LOW, HIGH. intros [-> | ->]; simpl; split; auto; discriminate.
Qed.

(** The two branches of [countPulse], by the elapsed time the handler
    itself computes on lines 132-140: at most [debounceDelayMillis]
    returns the state as it was; otherwise [lastPulse] becomes the clock
    reading, [pulseCount] is incremented (in [unsigned int] arithmetic,
    which is plus one below UINT_MAX), [ledState] is flipped and written
    to the LED pin, and nothing else changes. *)
Lemma countPulse_spec (time : Z) (st : state) :
  (timeSinceLastPulse time (lastPulse st) <= debounceDelayMillis ->
     countPulse time st = st)
  /\
  (debounceDelayMillis < timeSinceLastPulse time (lastPulse st) ->
     lastPulse (countPulse time st) = time
     /\ pulseCount (countPulse time st) = wrap16 (pulseCount st + 1)
     /\ (0 <= pulseCount st < UINT_MAX ->
           pulseCount (countPulse time st) = pulseCount st + 1)
     /\ ledState (countPulse time st) = toggle (ledState st)
     /\ (ledState st = LOW \/ ledState st = HIGH ->
           ledState (countPulse time st) <> ledState st)
     /\ ledPin (countPulse time st) = ledState (countPulse time st)
     /\ interruptsOn (countPulse time st) = interruptsOn st
     /\ serial (countPulse time st) = serial st).
Proof.
  split; intros H.
  - apply countPulse_discard, accepted_false_iff, H.
  - apply accepted_true_iff in H.
    rewrite (countPulse_accept _ _ H). simpl.
    split; [reflexivity |]. split; [reflexivity |].
    split; [intros Hc; apply wrap16_small; unfold is_uint; lia |].
    split; [reflexivity |].
    split; [intros Hl; apply (toggle_flips _ Hl) |].
    repeat split.
Qed.

(** The handler's elapsed time is the number of ticks or one less. *)
Lemma timeSinceLastPulse_ge_ticks (time last : Z) :
  is_ulong time -> is_ulong last ->
  ticks_between last time - 1 <= timeSinceLastPulse time last.
Proof.
  intros Ht Hl. destruct (Z_lt_le_dec time last) as [Hlt | Hle].
  - rewrite timeSinceLastPulse_wrapped_short by auto. lia.
  - rewrite timeSinceLastPulse_forward_exact by auto. lia.
Qed.

(** C1.  The handler against the time that has really elapsed since the
    last accepted pulse, counted in ticks of the clock.  A pulse is
    accepted at uptime 4294967290 ms; the next edge comes 11 ms later,
    when the clock has overflowed and reads 5.  More than
    [debounceDelayMillis] have elapsed, yet the handler leaves the state
    as it was: the edge is discarded.  Apart from this tick the handler
    does what C1 says: on clock readings it discards an edge when at
    most [debounceDelayMillis] ticks have elapsed, and it accepts one,
    setting [lastPulse], incrementing [pulseCount], flipping [ledState]
    and writing it to the LED pin, when more have elapsed and either
    the clock has not overflowed since [lastPulse] or more than
    [debounceDelayMillis + 1] ticks have elapsed. *)
Theorem countPulse_late_edge_after_overflow :
  (let st := isr 4294967290
               (run [Step ResetCount; Step EnableInterrupts] (setup boot)) in
   (lastPulse st = 4294967290 /\ pulseCount st = 1)
   /\ millis (4294967290 + 11) = 5
   /\ ticks_between (lastPulse st) (millis (4294967290 + 11)) = 11
   /\ debounceDelayMillis < ticks_between (lastPulse st) (millis (4294967290 + 11))
   /\ isr (4294967290 + 11) st = st)
  /\
  (forall (time : Z) (st : state),
     is_ulong time -> is_ulong (lastPulse st) ->
     (ticks_between (lastPulse st) time <= debounceDelayMillis ->
        countPulse time st = st)
     /\
     (debounceDelayMillis < ticks_between (lastPulse st) time ->
      lastPulse st <= time
      \/ debounceDelayMillis + 1 < ticks_between (lastPulse st) time ->
        lastPulse (countPulse time st) = time
        /\ pulseCount (countPulse time st) = wrap16 (pulseCount st + 1)
        /\ ledState (countPulse time st) = toggle (ledState st)
        /\ ledPin (countPulse time st) = ledState (countPulse time st)
        /\ interruptsOn (countPulse time st) = interruptsOn st
        /\ serial (countPulse time st) = serial st)).
Proof.
  split; [vm_compute; repeat split |].
  intros time st Ht Hl.
  pose proof (timeSinceLastPulse_le_ticks _ _ Ht Hl) as Hle.
  pose proof (timeSinceLastPulse_ge_ticks _ _ Ht Hl) as Hge.
  split.
  - intros Hclose. apply (proj1 (countPulse_spec time st)). lia.
  - intros Hfar Hcase.
    assert (Hacc : debounceDelayMillis < timeSinceLastPulse time (lastPulse st)).
    { destruct Hcase as [Hfw | Hmore]; [| lia].
      rewrite timeSinceLastPulse_forward_exact by auto. exact Hfar. }
    destruct (proj2 (countPulse_spec time st) Hacc)
      as (H1 & H2 & _ & H3 & _ & H4 & H5 & H6).
    repeat split; assumption.
Qed.

(** C2.  The handler's elapsed time at [lastPulse = 4294967290] and a
    clock reading of 5, which the clock shows 11 ms later: lines 132-140
    compute 10, the clock has advanced by 11 ticks, and the edge is
    discarded as one that came within [debounceDelayMillis]. *)
Theorem timeSinceLastPulse_across_overflow :
  millis (4294967290 + 11) = 5
  /\ timeSinceLastPulse 5 4294967290 = 10
  /\ ticks_between 4294967290 5 = 11
  /\ accepted 5 4294967290 = false.
Proof. vm_compute. repeat split. Qed.

(** C9.  [lastPulse] starts at 0, so in the first measurement window an
    edge at an uptime of at most [debounceDelayMillis] is discarded,
    though no pulse has been accepted before it. *)
Theorem first_edge_after_startup_discarded (T : Z) :
  0 <= T <= debounceDelayMillis ->
  let armed := run [Step ResetCount; Step EnableInterrupts] (setup boot) in
  interruptsOn armed = true
  /\ lastPulse armed = 0
  /\ exec (Falling T) armed = armed
  /\ pulses (lastPulse armed) [T] = [].
Proof.
  intros HT armed.
  assert (Hm : millis T = T).
  { apply millis_small. unfold is_ulong, ULONG_MAX, debounceDelayMillis in *. lia. }
  assert (Hd : accepted (millis T) 0 = false).
  { apply accepted_false_iff. rewrite Hm.
    rewrite timeSinceLastPulse_forward;
      unfold is_ulong, ULONG_MAX, debounceDelayMillis in *; lia. }
  repeat split.
  - cbn [exec]. change (interruptsOn armed) with true. cbv iota.
    unfold isr. apply countPulse_discard. exact Hd.
  - change (lastPulse armed) with 0. cbn [pulses]. now rewrite Hd.
Qed.

Lemma first_edge_after_startup_discarded_witness :
  let armed := run [Step ResetCount; Step EnableInterrupts] (setup boot) in
  interruptsOn armed = true
  /\ lastPulse armed = 0
  /\ exec (Falling 7) armed = armed
  /\ pulses (lastPulse armed) [7] = [].
Proof.
  apply (first_edge_after_startup_discarded 7).
  unfold debounceDelayMillis. lia.
Defined.

(** ** Sequences of edges *)

Lemma deliver_cons (T : Z) (Ts : list Z) (st : state) :
  deliver (T :: Ts) st = deliver Ts (isr T st).
Proof. reflexivity. Qed.

Lemma isr_discard (T : Z) (st : state) :
  accepted (millis T) (lastPulse st) = false -> isr T st = st.
Proof. apply countPulse_discard. Qed.

Lemma isr_accept_lastPulse (T : Z) (st : state) :
  accepted (millis T) (lastPulse st) = true -> lastPulse (isr T st) = millis T.
Proof. intros H. unfold isr. now rewrite (countPulse_accept _ _ H). Qed.

Lemma isr_accept_pulseCount (T : Z) (st : state) :
  accepted (millis T) (lastPulse st) = true ->
  pulseCount (isr T st) = wrap16 (pulseCount st + 1).
Proof. intros H. unfold isr. now rewrite (countPulse_accept _ _ H). Qed.

Lemma last_cons {A : Type} (a d : A) (l : list A) : last (a :: l) d = last l a.
Proof.
  revert a d. induction l as [| b l IH]; intros a d; [reflexivity |].
  change (last (a :: b :: l) d) with (last (b :: l) d).
  now rewrite (IH b d), (IH b a).
Qed.

(** [lastPulse] is the clock reading of the latest accepted pulse. *)
Lemma deliver_lastPulse (Ts : list Z) : forall (st : state) (T0 : Z),
  lastPulse st = millis T0 ->
  lastPulse (deliver Ts st) = millis (last (pulses (lastPulse st) Ts) T0).
Proof.
  induction Ts as [| T Ts IH]; intros st T0 H0; [exact H0 |].
  rewrite deliver_cons. cbn [pulses].
  destruct (accepted (millis T) (lastPulse st)) eqn:E.
  - rewrite last_cons.
    rewrite <- (isr_accept_lastPulse _ _ E).
    apply IH. apply isr_accept_lastPulse, E.
  - rewrite (isr_discard _ _ E). now apply IH.
Qed.

(** [pulseCount] grows by the number of accepted pulses. *)
Lemma deliver_pulseCount (Ts : list Z) : forall (st : state),
  is_uint (pulseCount st) ->
  pulseCount (deliver Ts st)
  = wrap16 (pulseCount st + Z.of_nat (List.length (pulses (lastPulse st) Ts))).
Proof.
  induction Ts as [| T Ts IH]; intros st Hc.
  - cbn. rewrite Z.add_0_r. symmetry. now apply wrap16_small.
  - rewrite deliver_cons. cbn [pulses].
    destruct (accepted (millis T) (lastPulse st)) eqn:E.
    + rewrite IH by (rewrite (isr_accept_pulseCount _ _ E); apply wrap16_range).
      rewrite (isr_accept_pulseCount _ _ E), (isr_accept_lastPulse _ _ E).
      cbn [List.length]. rewrite Nat2Z.inj_succ.
      unfold wrap16. rewrite Zplus_mod_idemp_l. f_equal. lia.
    + rewrite (isr_discard _ _ E). now apply IH.
Qed.

(** The handler touches neither the interrupt flag nor the serial port. *)
Lemma deliver_frame (Ts : list Z) : forall (st : state),
  interruptsOn (deliver Ts st) = interruptsOn st
  /\ serial (deliver Ts st) = serial st.
Proof.
  induction Ts as [| T Ts IH]; intros st; [now split |].
  rewrite deliver_cons.
  destruct (accepted (millis T) (lastPulse st)) eqn:E.
  - destruct (IH (isr T st)) as [-> ->].
    unfold isr. now rewrite (countPulse_accept _ _ E).
  - rewrite (isr_discard _ _ E). apply IH.
Qed.

Lemma pulses_incl (Ts : list Z) : forall (last : Z) (T : Z),
  In T (pulses last Ts) -> In T Ts.
Proof.
  induction Ts as [| T' Ts IH]; intros last T; cbn [pulses]; [tauto |].
  destruct (accepted (millis T') last).
  - intros [-> | H]; [now left | right; eauto].
  - intros H. right. eauto.
Qed.

(** ** Edges that keep their distance *)

Lemma same_epoch_millis (T0 T : Z) :
  epoch T = epoch T0 -> millis T - millis T0 = T - T0.
Proof.
  unfold epoch, millis, wrap32. intros He.
  pose proof (Z.div_mod T (ULONG_MAX + 1)) as HT.
  pose proof (Z.div_mod T0 (ULONG_MAX + 1)) as HT0.
  rewrite He in HT. unfold ULONG_MAX in *. lia.
Qed.

Lemma accepted_same_epoch (T0 T : Z) :
  epoch T = epoch T0 -> apart T0 T -> accepted (millis T) (millis T0) = true.
Proof.
  intros He Ha. unfold apart in Ha.
  pose proof (same_epoch_millis _ _ He) as Hd.
  apply accepted_true_iff.
  rewrite timeSinceLastPulse_forward; auto using millis_range.
  - lia.
  - unfold debounceDelayMillis in Ha. lia.
Qed.

(** C3, as the code has it.  Take a state whose [lastPulse] is the clock
    reading of uptime [T0] (at startup [T0 = 0]) and edges during which
    the clock does not overflow.  If the first edge is strictly more than
    [debounceDelayMillis] after [T0] and every later edge strictly more
    than [debounceDelayMillis] after the one before it, then every edge
    is accepted, [pulseCount] grows by their number (in [unsigned int]
    arithmetic) and [lastPulse] ends as the reading of the last edge. *)
Theorem spaced_edges_all_accepted (T0 : Z) (Ts : list Z) (st : state) :
  lastPulse st = millis T0 ->
  is_uint (pulseCount st) ->
  spaced_after T0 Ts ->
  Forall (fun T => epoch T = epoch T0) Ts ->
  pulses (lastPulse st) Ts = Ts
  /\ pulseCount (deliver Ts st) = wrap16 (pulseCount st + Z.of_nat (List.length Ts))
  /\ lastPulse (deliver Ts st) = millis (last Ts T0).
Proof.
  intros H0 Hc Hs He.
  assert (Hp : pulses (lastPulse st) Ts = Ts).
  { rewrite H0. clear H0 Hc st.
    revert T0 Hs He. induction Ts as [| T Ts IH]; intros T0 Hs He; [reflexivity |].
    destruct Hs as [Ha Hs]. inversion He as [| ? ? HeT HeTs]; subst.
    cbn [pulses]. rewrite (accepted_same_epoch _ _ HeT Ha).
    f_equal. apply IH; [exact Hs |].
    eapply Forall_impl; [| exact HeTs]. cbn. intros T' ->. now symmetry. }
  repeat split.
  - exact Hp.
  - rewrite deliver_pulseCount by exact Hc. now rewrite Hp.
  - rewrite (deliver_lastPulse Ts st T0 H0). now rewrite Hp.
Qed.

Lemma spaced_edges_all_accepted_witness :
  let armed := run [Step ResetCount; Step EnableInterrupts] (setup boot) in
  pulses (lastPulse armed) [11; 22; 40] = [11; 22; 40]
  /\ pulseCount (deliver [11; 22; 40] armed)
     = wrap16 (pulseCount armed + Z.of_nat (List.length [11; 22; 40]))
  /\ lastPulse (deliver [11; 22; 40] armed) = millis (last [11; 22; 40] 0).
Proof.
  apply (spaced_edges_all_accepted 0 [11; 22; 40]).
  - reflexivity.
  - vm_compute. split; discriminate.
  - vm_compute. repeat split.
  - repeat constructor.
Defined.

(** C3, as it is written, fails twice from the state at startup: an edge
    5 ms after startup is suppressed, and so is an edge that follows an
    accepted one by 11 ms when the clock overflows in between. *)
Lemma spaced_edges_suppressed :
  spaced [5]
  /\ pulses (lastPulse boot) [5] = []
  /\ spaced [4294967290; 4294967301]
  /\ pulses (lastPulse boot) [4294967290; 4294967301] = [4294967290].
Proof. vm_compute. repeat split. Qed.

(** ** The debounce invariant *)

(** An accepted edge is strictly more than the debounce interval after
    the uptime [lastPulse] was read at. *)
Lemma accepted_apart (T0 T : Z) :
  T0 <= T -> accepted (millis T) (millis T0) = true -> apart T0 T.
Proof.
  intros Hle Ha. apply accepted_true_iff in Ha.
  pose proof (timeSinceLastPulse_le_ticks _ _ (millis_range T) (millis_range T0)).
  pose proof (ticks_between_millis_le _ _ Hle).
  unfold apart. lia.
Qed.

Lemma apart_trans (a b c : Z) : apart a b -> apart b c -> apart a c.
Proof. unfold apart, debounceDelayMillis. lia. Qed.

Lemma pulses_apart_from (Ts : list Z) : forall (T0 : Z),
  StronglySorted Z.le (T0 :: Ts) ->
  StronglySorted apart (T0 :: pulses (millis T0) Ts).
Proof.
  induction Ts as [| T Ts IH]; intros T0 Hs.
  - constructor; constructor.
  - apply StronglySorted_inv in Hs. destruct Hs as [HsT H0].
    inversion H0 as [| ? ? H0T H0Ts]; subst.
    cbn [pulses]. destruct (accepted (millis T) (millis T0)) eqn:E.
    + pose proof (accepted_apart _ _ H0T E) as Ha.
      specialize (IH T HsT).
      apply StronglySorted_inv in IH. destruct IH as [IHs IHf].
      constructor.
      * constructor; assumption.
      * constructor; [exact Ha |].
        eapply Forall_impl; [| exact IHf]. intros x. now apply apart_trans.
    + apply IH. apply StronglySorted_inv in HsT. destruct HsT as [HsTs _].
      constructor; assumption.
Qed.


Lemma chronological (Ts : list Z) : Sorted Z.le Ts -> StronglySorted Z.le Ts.
Proof. apply Sorted_StronglySorted. exact Z.le_trans. Qed.

(** Pulses that are pairwise more than the debounce interval apart and
    all arrive by [B]: the first one leaves room for the others. *)
Lemma apart_chain_bound (l : list Z) : forall (x B : Z),
  StronglySorted apart (x :: l) ->
  Forall (fun T => T <= B) (x :: l) ->
  x + (debounceDelayMillis + 1) * Z.of_nat (List.length l) <= B.
Proof.
  induction l as [| y l IH]; intros x B Hs Hb.
  - inversion Hb; subst. cbn. lia.
  - apply StronglySorted_inv in Hs. destruct Hs as [Hs Hx].
    inversion Hx as [| ? ? Hxy _]; subst.
    inversion Hb as [| ? ? _ Hb']; subst.
    specialize (IH y B Hs Hb'). unfold apart in Hxy.
    cbn [List.length]. rewrite Nat2Z.inj_succ. lia.
Qed.

Lemma StronglySorted_filter {A : Type} (R : A -> A -> Prop) (f : A -> bool)
  (l : list A) :
  StronglySorted R l -> StronglySorted R (filter f l).
Proof.
  induction 1 as [| x l Hs IH Hx]; cbn [filter]; [constructor |].
  destruct (f x); [| exact IH].
  constructor; [exact IH |].
  rewrite Forall_forall in *. intros y Hy. apply Hx.
  now apply filter_In in Hy.
Qed.

(** Of pulses that are pairwise more than the debounce interval apart, an
    interval of that length holds at most one. *)
Lemma apart_in_interval (l : list Z) (A : Z) :
  StronglySorted apart l ->
  (List.length (filter (within A) l)
   <= 1)%nat.
Proof.
  intros Hs.
  pose proof (StronglySorted_filter apart (within A) l Hs) as Hf.
  assert (Hin : Forall (fun T => A <= T <= A + debounceDelayMillis)
                       (filter (within A) l)).
  { apply Forall_forall. intros T HT. apply filter_In in HT.
    destruct HT as [_ HT]. unfold within in HT. apply andb_true_iff in HT. lia. }
  destruct (filter _ l) as [| x l']; [cbn; lia |].
  assert (Hb : Forall (fun T => T <= A + debounceDelayMillis) (x :: l')).
  { eapply Forall_impl; [| exact Hin]. cbn. intros; lia. }
  pose proof (apart_chain_bound l' x _ Hf Hb) as H.
  assert (Hx : A <= x) by (inversion Hin; subst; lia).
  unfold debounceDelayMillis in H. cbn [List.length]. lia.
Qed.

(** C4.  Let the edges [Ts] arrive in chronological order, none before
    the uptime [T0] at which [lastPulse] was set (startup, or the pulse
    accepted last).  Then (1) every accepted pulse is strictly more than
    [debounceDelayMillis] after [T0] and after every pulse accepted
    before it, (2) [lastPulse] ends as the clock reading of the pulse
    accepted last, so each accepted pulse moves it to a strictly later
    time, (3) no interval of length [debounceDelayMillis] holds more
    than one accepted pulse, and (4) of edges that are pairwise at most
    [debounceDelayMillis] apart at most one is accepted. *)
Theorem debounce_invariant (T0 : Z) (Ts : list Z) (st : state) :
  lastPulse st = millis T0 ->
  Sorted Z.le (T0 :: Ts) ->
  StronglySorted apart (T0 :: pulses (lastPulse st) Ts)
  /\ lastPulse (deliver Ts st) = millis (last (pulses (lastPulse st) Ts) T0)
  /\ (forall A : Z,
        (List.length (filter (within A) (pulses (lastPulse st) Ts)) <= 1)%nat)
  /\ ((forall a b, In a Ts -> In b Ts -> Z.abs (b - a) <= debounceDelayMillis) ->
      (List.length (pulses (lastPulse st) Ts) <= 1)%nat).
Proof.
  intros H0 Hs. apply chronological in Hs.
  pose proof (pulses_apart_from Ts T0 Hs) as Hap. rewrite <- H0 in Hap.
  split; [exact Hap |]. split; [now apply deliver_lastPulse |].
  split.
  { intros A. apply apart_in_interval.
    now apply StronglySorted_inv in Hap. }
  intros Hclose.
  apply StronglySorted_inv in Hap. destruct Hap as [Hap _].
  destruct (pulses (lastPulse st) Ts) as [| a [| b l]] eqn:E; cbn; try lia.
  exfalso.
  assert (Ha : In a Ts) by (apply (pulses_incl Ts (lastPulse st)); rewrite E; now left).
  assert (Hb : In b Ts)
    by (apply (pulses_incl Ts (lastPulse st)); rewrite E; right; now left).
  specialize (Hclose a b Ha Hb).
  apply StronglySorted_inv in Hap. destruct Hap as [_ Hab].
  inversion Hab as [| ? ? Hgap _]; subst. unfold apart in Hgap. lia.
Qed.

Lemma debounce_invariant_witness :
  let armed := run [Step ResetCount; Step EnableInterrupts] (setup boot) in
  (StronglySorted apart (0 :: pulses (lastPulse armed) [0; 5; 20; 25; 40])
   /\ lastPulse (deliver [0; 5; 20; 25; 40] armed)
      = millis (last (pulses (lastPulse armed) [0; 5; 20; 25; 40]) 0))
  /\ (List.length (pulses (lastPulse armed) [100; 104; 108]%Z) <= 1)%nat.
Proof.
  intros armed. split.
  - destruct (debounce_invariant 0 [0; 5; 20; 25; 40] armed) as (H1 & H2 & _).
    + reflexivity.
    + sorted_le.
    + split; assumption.
  - apply (debounce_invariant 0 [100; 104; 108] armed).
    + reflexivity.
    + sorted_le.
    + unfold debounceDelayMillis. cbn [In]. intros a b Ha Hb. lia.
Defined.

(** ** Measurement windows *)

Lemma run_app (tr1 tr2 : list event) (st : state) :
  run (tr1 ++ tr2) st = run tr2 (run tr1 st).
Proof. apply fold_left_app. Qed.

(** Edges while interrupts are disabled leave the state as it is. *)
Lemma run_falling_disarmed (Ts : list Z) (st : state) :
  interruptsOn st = false -> run (map Falling Ts) st = st.
Proof.
  intros H. induction Ts as [| T Ts IH]; [reflexivity |].
  cbn [map]. change (run (Falling T :: map Falling Ts) st)
    with (run (map Falling Ts) (exec (Falling T) st)).
  cbn [exec]. now rewrite H.
Qed.

(** Edges while interrupts are enabled run the handler. *)
Lemma run_falling_armed (Ts : list Z) : forall (st : state),
  interruptsOn st = true -> run (map Falling Ts) st = deliver Ts st.
Proof.
  induction Ts as [| T Ts IH]; intros st H; [reflexivity |].
  cbn [map]. change (run (Falling T :: map Falling Ts) st)
    with (run (map Falling Ts) (exec (Falling T) st)).
  cbn [exec]. rewrite H, deliver_cons. apply IH.
  destruct (deliver_frame [T] st) as [Hi _]. now rewrite <- H, <- Hi.
Qed.

Lemma run_cycle_to_arm (a : arrivals) (st : state) :
  interruptsOn st = false ->
  run (cycle_to_arm a) st = set_interrupts true (set_pulseCount 0 st).
Proof.
  intros H. unfold cycle_to_arm.
  rewrite run_app, (run_falling_disarmed _ _ H).
  rewrite run_app. cbn [run fold_left exec exec_stmt].
  rewrite run_app, run_falling_disarmed by exact H.
  reflexivity.
Qed.

Lemma run_cycle (a : arrivals) (st : state) :
  interruptsOn st = false ->
  run (cycle a) st
  = exec_stmt Report
      (set_interrupts false
         (deliver (in_window a) (set_interrupts true (set_pulseCount 0 st)))).
Proof.
  intros H. unfold cycle.
  rewrite run_app, (run_falling_disarmed _ _ H).
  rewrite run_app. cbn [run fold_left exec exec_stmt].
  rewrite run_app, run_falling_disarmed by exact H.
  rewrite run_app. cbn [run fold_left exec exec_stmt].
  rewrite run_app, run_falling_armed by reflexivity.
  rewrite run_app. cbn [run fold_left exec exec_stmt].
  rewrite run_app, run_falling_disarmed by reflexivity.
  reflexivity.
Qed.


(** *** On the board *)

Lemma board_run_app (latch : bool) (os1 os2 : list occurrence) (b : board) :
  board_run latch (os1 ++ os2) b = board_run latch os2 (board_run latch os1 b).
Proof. apply fold_left_app. Qed.

Lemma serve_disarmed (T : Z) (b : board) :
  interruptsOn (sketch b) = false -> serve T b = b.
Proof. intros H. unfold serve. now rewrite H. Qed.

Lemma serve_none (T : Z) (b : board) : pending b = false -> serve T b = b.
Proof. intros H. unfold serve. now rewrite H, andb_false_r. Qed.

(** While interrupts are disabled edges leave the sketch alone; a
    controller that latches remembers that there was one. *)
Lemma board_falls_disarmed (latch : bool) (Ts : list Z) : forall (b : board),
  interruptsOn (sketch b) = false ->
  board_run latch (map PinFalls Ts) b
  = mkBoard (sketch b) (pending b || latch && nonempty Ts).
Proof.
  induction Ts as [| T Ts IH]; intros [st p] H; cbn [sketch pending] in *.
  - cbn. now rewrite andb_false_r, orb_false_r.
  - cbn [map]. change (board_run latch (PinFalls T :: map PinFalls Ts) (mkBoard st p))
      with (board_run latch (map PinFalls Ts)
              (board_step latch (PinFalls T) (mkBoard st p))).
    cbn [board_step]. rewrite serve_disarmed by exact H.
    cbn [sketch pending]. rewrite H, IH by exact H.
    cbn [sketch pending nonempty]. f_equal.
    destruct latch, p, (nonempty Ts); reflexivity.
Qed.

(** With interrupts enabled and no request pending every edge runs the
    handler. *)
Lemma board_falls_armed (latch : bool) (Ts : list Z) : forall (st : state),
  interruptsOn st = true ->
  board_run latch (map PinFalls Ts) (mkBoard st false)
  = mkBoard (deliver Ts st) false.
Proof.
  induction Ts as [| T Ts IH]; intros st H; [reflexivity |].
  cbn [map]. change (board_run latch (PinFalls T :: map PinFalls Ts) (mkBoard st false))
    with (board_run latch (map PinFalls Ts)
            (board_step latch (PinFalls T) (mkBoard st false))).
  cbn [board_step]. rewrite serve_none by reflexivity.
  cbn [sketch pending]. rewrite H, deliver_cons. apply IH.
  destruct (deliver_frame [T] st) as [Hi _]. now rewrite <- H, <- Hi.
Qed.

Lemma board_runs_disarmed (latch : bool) (T : Z) (s : stmt) (b : board) :
  interruptsOn (sketch b) = false ->
  board_run latch [Runs T s] b = mkBoard (exec_stmt s (sketch b)) (pending b).
Proof. intros H. cbn. now rewrite serve_disarmed. Qed.

Lemma board_cycle_to_arm_outcome (latch : bool) (A : Z) (a : arrivals) (b : board) :
  interruptsOn (sketch b) = false ->
  board_run latch (board_cycle_to_arm A a) b
  = mkBoard (set_interrupts true (set_pulseCount 0 (sketch b)))
            (pending b
             || latch && (nonempty (before_reset a) || nonempty (before_arm a))).
Proof.
  intros H. unfold board_cycle_to_arm.
  rewrite board_run_app, board_falls_disarmed by exact H.
  rewrite board_run_app, board_runs_disarmed by exact H.
  rewrite board_run_app, board_falls_disarmed by exact H.
  rewrite board_runs_disarmed by exact H.
  cbn [sketch pending exec_stmt]. f_equal.
  destruct latch, (pending b), (nonempty (before_reset a)), (nonempty (before_arm a));
    reflexivity.
Qed.

(** A pass of loop() on the board: the handler runs on the request
    pending when interrupts are enabled, if there is one, and on the
    edges of the window. *)
Lemma board_cycle_outcome (latch : bool) (A : Z) (a : arrivals) (b : board) :
  interruptsOn (sketch b) = false ->
  let requested :=
    pending b || latch && (nonempty (before_reset a) || nonempty (before_arm a)) in
  let handled := (if requested then [A] else []) ++ in_window a in
  board_run latch (board_cycle A a) b
  = mkBoard
      (exec_stmt Report
         (set_interrupts false
            (deliver handled (set_interrupts true (set_pulseCount 0 (sketch b))))))
      (latch && nonempty (after_disarm a)).
Proof.
  intros H requested handled.
  assert (Hsplit : board_cycle A a
                   = board_cycle_to_arm A a
                     ++ [Runs A Delay]
                     ++ map PinFalls (in_window a)
                     ++ [Runs (A + delayMillis) DisableInterrupts]
                     ++ map PinFalls (after_disarm a)
                     ++ [Runs (A + delayMillis) Report]).
  { unfold board_cycle, board_cycle_to_arm. rewrite <- !app_assoc. reflexivity. }
  rewrite Hsplit, board_run_app, board_cycle_to_arm_outcome by exact H.
  fold requested. set (arm := set_interrupts true (set_pulseCount 0 (sketch b))).
  assert (Hd : board_run latch [Runs A Delay] (mkBoard arm requested)
               = mkBoard (deliver (if requested then [A] else []) arm) false).
  { cbn. unfold serve. cbn. now destruct requested. }
  rewrite board_run_app, Hd.
  assert (Hon : interruptsOn (deliver (if requested then [A] else []) arm) = true).
  { now destruct (deliver_frame (if requested then [A] else []) arm) as [-> _]. }
  rewrite board_run_app, board_falls_armed by exact Hon.
  replace (deliver (in_window a) (deliver (if requested then [A] else []) arm))
    with (deliver handled arm) by apply fold_left_app.
  rewrite board_run_app. cbn [board_run fold_left board_step].
  rewrite serve_none by reflexivity. cbn [sketch pending exec_stmt].
  rewrite board_run_app, board_falls_disarmed by reflexivity.
  rewrite board_runs_disarmed by reflexivity.
  reflexivity.
Qed.

(** An occurrence changes [pulseCount] only if it is the reset of line
    161 or happens while interrupts are enabled. *)
Lemma board_pulseCount_changes (latch : bool) (o : occurrence) (b : board) :
  pulseCount (sketch (board_step latch o b)) <> pulseCount (sketch b) ->
  (exists T, o = Runs T ResetCount) \/ interruptsOn (sketch b) = true.
Proof.
  intros Hne. destruct (interruptsOn (sketch b)) eqn:Hi; [now right | left].
  destruct o as [T s | T]; cbn [board_step] in Hne;
    rewrite serve_disarmed in Hne by exact Hi.
  - destruct s; try (now exists T); cbn in Hne; congruence.
  - rewrite Hi in Hne. cbn in Hne. congruence.
Qed.

(** C8.  A falling edge that arrives while interrupts are disabled, on
    a controller that latches the request.  After setup() the first pass
    of loop() is armed at uptime 0 and sees no edge in its window; an
    edge arrives at 60050 ms, after noInterrupts() and before the
    report; the second pass is armed at 60140 ms and sees no edge in its
    window either.  The handler runs when the second pass has enabled
    interrupts, and the second report shows a tally of 1: the edge is
    counted in the next window.  On a controller that forgets the
    request both reports show 0.

    What holds on every controller, for a pass from a board with
    interrupts disabled: [pulseCount] is 0 when interrupts() has been
    called; the tally reported is the number of pulses accepted out of
    the edges the handler ran on, which are the request pending when
    interrupts are enabled, if any, and the edges of the window; the
    pass ends with interrupts disabled; and an occurrence changes
    [pulseCount] only if it is the reset or happens while interrupts are
    enabled.  On a controller that forgets, from no pending request, the
    pass is [loop] on the edges of its window. *)
Theorem pending_edge_counted_in_next_window :
  (let start := mkBoard (setup boot) false in
   let pass1 := board_cycle 0 (mkArrivals [] [] [] [60050]) in
   let pass2 := board_cycle 60140 (mkArrivals [] [] [] []) in
   (pulseCount (sketch (board_run true (pass1 ++ pass2) start)) = 1
    /\ serial (sketch (board_run true (pass1 ++ pass2) start))
       = report 0 ++ report 1)
   /\ (pulseCount (sketch (board_run false (pass1 ++ pass2) start)) = 0
       /\ serial (sketch (board_run false (pass1 ++ pass2) start))
          = report 0 ++ report 0))
  /\
  (forall (latch : bool) (A : Z) (a : arrivals) (b : board),
     interruptsOn (sketch b) = false ->
     let armed := board_run latch (board_cycle_to_arm A a) b in
     let final := board_run latch (board_cycle A a) b in
     let requested :=
       pending b || latch && (nonempty (before_reset a) || nonempty (before_arm a)) in
     let handled := (if requested then [A] else []) ++ in_window a in
     let n := wrap16 (Z.of_nat (List.length (pulses (lastPulse (sketch b)) handled))) in
     (pulseCount (sketch armed) = 0 /\ interruptsOn (sketch armed) = true)
     /\ (pulseCount (sketch final) = n
         /\ serial (sketch final) = serial (sketch b) ++ report n)
     /\ (interruptsOn (sketch final) = false
         /\ pending final = latch && nonempty (after_disarm a)))
  /\
  (forall (latch : bool) (o : occurrence) (b : board),
     pulseCount (sketch (board_step latch o b)) <> pulseCount (sketch b) ->
     (exists T, o = Runs T ResetCount) \/ interruptsOn (sketch b) = true)
  /\
  (forall (A : Z) (a : arrivals) (st : state),
     interruptsOn st = false ->
     board_run false (board_cycle A a) (mkBoard st false)
     = mkBoard (loop (in_window a) st) false).
Proof.
  assert (Hgen : forall (latch : bool) (A : Z) (a : arrivals) (b : board),
     interruptsOn (sketch b) = false ->
     let final := board_run latch (board_cycle A a) b in
     let requested :=
       pending b || latch && (nonempty (before_reset a) || nonempty (before_arm a)) in
     let handled := (if requested then [A] else []) ++ in_window a in
     let n := wrap16 (Z.of_nat (List.length (pulses (lastPulse (sketch b)) handled))) in
     (pulseCount (sketch final) = n
      /\ serial (sketch final) = serial (sketch b) ++ report n)
     /\ (interruptsOn (sketch final) = false
         /\ pending final = latch && nonempty (after_disarm a))).
  { intros latch A a b H final requested handled n.
    unfold final. rewrite (board_cycle_outcome latch A a b H).
    fold requested. fold handled.
    set (arm := set_interrupts true (set_pulseCount 0 (sketch b))).
    assert (Hc : pulseCount (deliver handled arm) = n).
    { rewrite deliver_pulseCount by (cbn; unfold is_uint, UINT_MAX; lia).
      reflexivity. }
    cbn. rewrite Hc. destruct (deliver_frame handled arm) as [_ ->].
    repeat split. }
  split; [| split; [| split]].
  - intros start pass1 pass2.
    assert (H1 : forall latch,
              board_run latch pass1 start
              = mkBoard (exec_stmt Report (set_interrupts false
                           (set_interrupts true (set_pulseCount 0 (setup boot)))))
                        latch).
    { intros latch. unfold pass1.
      rewrite (board_cycle_outcome latch 0 _ start eq_refl).
      cbn [before_reset before_arm in_window after_disarm nonempty pending start].
      rewrite andb_false_r, andb_true_r. reflexivity. }
    split.
    + rewrite board_run_app, H1.
      destruct (Hgen true 60140 (mkArrivals [] [] [] [])
                  (mkBoard (exec_stmt Report (set_interrupts false
                     (set_interrupts true (set_pulseCount 0 (setup boot))))) true)
                  eq_refl) as ((Hc & Hs) & _).
      fold pass2 in Hc, Hs. split; [exact Hc |].
      rewrite Hs. reflexivity.
    + rewrite board_run_app, H1.
      destruct (Hgen false 60140 (mkArrivals [] [] [] [])
                  (mkBoard (exec_stmt Report (set_interrupts false
                     (set_interrupts true (set_pulseCount 0 (setup boot))))) false)
                  eq_refl) as ((Hc & Hs) & _).
      fold pass2 in Hc, Hs. split; [exact Hc |].
      rewrite Hs. reflexivity.
  - intros latch A a b H armed final requested handled n.
    split; [| exact (Hgen latch A a b H)].
    unfold armed. rewrite (board_cycle_to_arm_outcome latch A a b H).
    split; reflexivity.
  - apply board_pulseCount_changes.
  - intros A a st H.
    rewrite (board_cycle_outcome false A a (mkBoard st false) H).
    cbn [pending sketch andb orb app]. unfold loop. now rewrite (run_cycle _ _ H).
Qed.

(** ** Across windows *)

(** An edge at most the debounce interval after the uptime [lastPulse]
    was read at is discarded. *)
Lemma close_discarded (T0 T : Z) :
  T0 <= T <= T0 + debounceDelayMillis -> accepted (millis T) (millis T0) = false.
Proof.
  intros [Hle Hclose]. apply accepted_false_iff.
  pose proof (timeSinceLastPulse_le_ticks _ _ (millis_range T) (millis_range T0)).
  pose proof (ticks_between_millis_le _ _ Hle).
  lia.
Qed.

(** The statements of loop() write neither [lastPulse] nor the LED. *)
Lemma exec_stmt_frame (s : stmt) (st : state) :
  lastPulse (exec_stmt s st) = lastPulse st
  /\ ledState (exec_stmt s st) = ledState st
  /\ ledPin (exec_stmt s st) = ledPin st.
Proof. destruct s; repeat split. Qed.

(** C10.  The statements of loop() leave [lastPulse] and [ledState] as
    they are; the reset of line 161 writes [pulseCount] only.  So after a
    pass of loop() in which the pulse accepted last came at uptime [T0],
    the next pass is armed with [pulseCount = 0] and [lastPulse] still
    the reading of [T0], and an edge that arrives in its window at most
    [debounceDelayMillis] after [T0] is discarded: the pass goes as if
    the edge had not arrived. *)
Theorem debounce_carries_over (a1 a2 : arrivals) (T00 T : Z) (st : state) :
  interruptsOn st = false ->
  lastPulse st = millis T00 ->
  let T0 := last (pulses (lastPulse st) (in_window a1)) T00 in
  T0 <= T <= T0 + debounceDelayMillis ->
  let st1 := run (cycle a1) st in
  let armed2 := run (cycle_to_arm a2) st1 in
  (forall (s : stmt) (x : state),
     lastPulse (exec_stmt s x) = lastPulse x
     /\ ledState (exec_stmt s x) = ledState x)
  /\ (forall x : state,
        exec_stmt ResetCount x
        = {| pulseCount := 0;
             lastPulse := lastPulse x;
             ledState := ledState x;
             ledPin := ledPin x;
             interruptsOn := interruptsOn x;
             serial := serial x |})
  /\ (lastPulse armed2 = millis T0
      /\ ledState armed2 = ledState st1
      /\ pulseCount armed2 = 0
      /\ interruptsOn armed2 = true)
  /\ exec (Falling T) armed2 = armed2
  /\ run (cycle a1 ++ cycle (with_first_edge T a2)) st
     = run (cycle a1 ++ cycle a2) st.
Proof.
  intros Hi H0 T0 HT st1 armed2.
  assert (Hi1 : interruptsOn st1 = false).
  { unfold st1. now rewrite (run_cycle a1 st Hi). }
  assert (Hl1 : lastPulse st1 = millis T0).
  { unfold st1. rewrite (run_cycle a1 st Hi). cbn.
    set (w := set_interrupts true (set_pulseCount 0 st)).
    change (lastPulse st) with (lastPulse w) in T0.
    now apply deliver_lastPulse. }
  assert (Ha2 : armed2 = set_interrupts true (set_pulseCount 0 st1)).
  { unfold armed2. now apply run_cycle_to_arm. }
  assert (Hd : accepted (millis T) (lastPulse armed2) = false).
  { rewrite Ha2. cbn. rewrite Hl1. now apply close_discarded. }
  split; [| split; [| split; [| split]]].
  - intros s x. destruct (exec_stmt_frame s x) as (? & ? & _). now split.
  - reflexivity.
  - rewrite Ha2. cbn. rewrite Hl1. repeat split.
  - cbn. rewrite Ha2 at 1. cbn. now apply isr_discard.
  - rewrite !run_app. fold st1.
    rewrite !(run_cycle _ st1 Hi1). cbn [with_first_edge in_window].
    rewrite deliver_cons. rewrite <- Ha2.
    now rewrite (isr_discard _ _ Hd).
Qed.

Lemma debounce_carries_over_witness :
  let a1 := mkArrivals [] [] [20; 59995] [] in
  let a2 := mkArrivals [] [] [60200] [] in
  let st := setup boot in
  let st1 := run (cycle a1) st in
  let armed2 := run (cycle_to_arm a2) st1 in
  (lastPulse armed2 = millis 59995
   /\ ledState armed2 = ledState st1
   /\ pulseCount armed2 = 0
   /\ interruptsOn armed2 = true)
  /\ exec (Falling 60003) armed2 = armed2
  /\ run (cycle a1 ++ cycle (with_first_edge 60003 a2)) st
     = run (cycle a1 ++ cycle a2) st.
Proof.
  intros a1 a2 st st1 armed2.
  destruct (debounce_carries_over a1 a2 0 60003 st) as (_ & _ & H3 & H4 & H5).
  - reflexivity.
  - reflexivity.
  - vm_compute. split; discriminate.
  - split; [exact H3 |]. split; [exact H4 | exact H5].
Defined.

(** ** Rates *)

Lemma all_from_spec (f : Z -> bool) (n : nat) : forall (z k : Z),
  all_from f z n = true -> z <= k < z + Z.of_nat n -> f k = true.
Proof.
  induction n as [| n IH]; intros z k Hall Hk.
  - cbn in Hk. lia.
  - cbn [all_from] in Hall. apply andb_true_iff in Hall. destruct Hall as [Hz Hall].
    destruct (Z.eq_dec k z) as [-> | Hne]; [exact Hz |].
    apply (IH (z + 1)); [exact Hall | lia].
Qed.

(** [rates_ok] holds of every value an [unsigned int] can take. *)
Lemma rates_ok_all : all_from rates_ok 0 (Z.to_nat (UINT_MAX + 1)) = true.
Proof. vm_cast_no_check (eq_refl true). Qed.

Lemma rates_ok_uint (count : Z) : is_uint count -> rates_ok count = true.
Proof.
  intros H. apply (all_from_spec _ _ 0 count rates_ok_all).
  unfold is_uint, UINT_MAX in *. rewrite Z2Nat.id; lia.
Qed.

Lemma rates_ok_spec (count : Z) :
  rates_ok count = true ->
  let pps := pulsesPerSecond count in
  let ppm := pulsesPerMinute count in
  let qs := (inject_Z count / inject_Z measurementDelaySeconds)%Q in
  let qm := (inject_Z count * 60 / inject_Z measurementDelaySeconds)%Q in
  (is_finite pps = true /\ is_finite ppm = true)
  /\ (SF2Q ppm == qm)%Q
  /\ (Qabs (SF2Q pps - qs) <= qs * (1 # 16777216))%Q
  /\ (count mod measurementDelaySeconds = 0 -> (SF2Q pps == qs)%Q)
  /\ (fge pps maxImpulsesPerSecond = true
      <-> (SF2Q maxImpulsesPerSecond <= SF2Q pps)%Q)
  /\ (fge pps maxImpulsesPerSecond = true <-> 3000 <= count).
Proof.
  unfold rates_ok. intros H.
  repeat (apply andb_true_iff in H; destruct H as [H ?]).
  repeat match goal with
         | H : Bool.eqb _ _ = true |- _ => apply eqb_prop in H
         | H : Qeq_bool _ _ = true |- _ => apply Qeq_bool_iff in H
         | H : Qle_bool _ _ = true |- _ => apply Qle_bool_iff in H
         end.
  cbv zeta. repeat split; try assumption.
  - intros Hm. apply Z.eqb_eq in Hm.
    match goal with
    | H : (if _ then _ else _) = true |- _ => rewrite Hm in H; now apply Qeq_bool_iff
    end.
  - match goal with
    | H : fge _ _ = Qle_bool _ _ |- _ => rewrite H; apply Qle_bool_iff
    end.
  - match goal with
    | H : fge _ _ = Qle_bool _ _ |- _ => rewrite H; apply Qle_bool_iff
    end.
  - match goal with
    | H : fge _ _ = (_ <=? _) |- _ => rewrite H; apply Z.leb_le
    end.
  - match goal with
    | H : fge _ _ = (_ <=? _) |- _ => rewrite H; apply Z.leb_le
    end.
Qed.

(** C5.  For every value [count] of [pulseCount]: the report carries
    pulsesPerSecond and pulsesPerMinute as computed on lines 170-173;
    both are finite; pulsesPerMinute is the number
    [count * 60 / measurementDelaySeconds]; pulsesPerSecond is
    [count / measurementDelaySeconds] rounded to a float (relative error
    at most 2^-24), and is that number when [measurementDelaySeconds]
    divides [count].  With 120 pulses in the 60 s window the rates are
    the floats 2 and 120. *)
Theorem rates_computed (count : Z) :
  is_uint count ->
  let qs := (inject_Z count / inject_Z measurementDelaySeconds)%Q in
  let qm := (inject_Z count * 60 / inject_Z measurementDelaySeconds)%Q in
  (In (SerialPrintlnFloat (pulsesPerSecond count) displayedDecimals) (report count)
   /\ In (SerialPrintlnFloat (pulsesPerMinute count) displayedDecimals) (report count))
  /\ (is_finite (pulsesPerSecond count) = true
      /\ is_finite (pulsesPerMinute count) = true)
  /\ (SF2Q (pulsesPerMinute count) == qm)%Q
  /\ (Qabs (SF2Q (pulsesPerSecond count) - qs) <= qs * (1 # 16777216))%Q
  /\ (count mod measurementDelaySeconds = 0 -> (SF2Q (pulsesPerSecond count) == qs)%Q)
  /\ (pulsesPerSecond 120 = float_of_Z 2
      /\ pulsesPerMinute 120 = float_of_Z 120
      /\ (SF2Q (float_of_Z 2) == 2)%Q
      /\ (SF2Q (float_of_Z 120) == 120)%Q).
Proof.
  intros Hc qs qm.
  destruct (rates_ok_spec count (rates_ok_uint count Hc))
    as (Hfin & Hm & Hs & Hdiv & _).
  split; [| split; [exact Hfin | split; [exact Hm | split; [exact Hs | split]]]].
  - unfold report. split; apply in_or_app; left; cbn [In]; tauto.
  - exact Hdiv.
  - vm_compute. repeat split.
Qed.

Lemma rates_computed_witness :
  (SF2Q (pulsesPerMinute 120) == inject_Z 120 * 60 / inject_Z measurementDelaySeconds)%Q
  /\ (SF2Q (pulsesPerSecond 120) == inject_Z 120 / inject_Z measurementDelaySeconds)%Q.
Proof.
  destruct (rates_computed 120) as (_ & _ & Hm & _ & Hs & _).
  - vm_compute. split; discriminate.
  - split; [exact Hm |]. apply Hs. reflexivity.
Defined.

(** ** The range check *)

Lemma error_line_in_report (count : Z) :
  In error_line (report count)
  <-> fge (pulsesPerSecond count) maxImpulsesPerSecond = true.
Proof.
  unfold report, range_check. rewrite !in_app_iff.
  destruct (fge (pulsesPerSecond count) maxImpulsesPerSecond); cbn [In]; split.
  - reflexivity.
  - intros _. right. left. now left.
  - unfold error_line, separator_line.
    intros [H | [[] | [H | []]]]; [| discriminate H].
    repeat (destruct H as [H | H]; [discriminate H |]). destruct H.
  - discriminate.
Qed.

Lemma report_ends_with_separator (count : Z) :
  exists lines, report count = lines ++ [separator_line].
Proof.
  unfold report. eexists. rewrite app_assoc. reflexivity.
Qed.

(** C7.  For every value [count] of [pulseCount]: the report holds the
    error line if and only if pulsesPerSecond >= maxImpulsesPerSecond as
    floats, which is the same comparison on the numbers they stand for
    and holds from 3000 pulses on.  At 3000 pulses pulsesPerSecond is
    maxImpulsesPerSecond itself and the line is printed.  With or without
    it the report ends with the separator line and changes nothing but
    the serial log, so the next pass of loop() starts alike. *)
Theorem range_check_spec (count : Z) :
  is_uint count ->
  (In error_line (report count)
   <-> fge (pulsesPerSecond count) maxImpulsesPerSecond = true)
  /\ (fge (pulsesPerSecond count) maxImpulsesPerSecond = true
      <-> (SF2Q maxImpulsesPerSecond <= SF2Q (pulsesPerSecond count))%Q)
  /\ (In error_line (report count) <-> 3000 <= count)
  /\ (pulsesPerSecond 3000 = maxImpulsesPerSecond /\ In error_line (report 3000))
  /\ (exists lines, report count = lines ++ [separator_line])
  /\ (forall st : state,
        pulseCount st = count ->
        exec_stmt Report st
        = {| pulseCount := pulseCount st;
             lastPulse := lastPulse st;
             ledState := ledState st;
             ledPin := ledPin st;
             interruptsOn := interruptsOn st;
             serial := serial st ++ report count |}).
Proof.
  intros Hc.
  destruct (rates_ok_spec count (rates_ok_uint count Hc))
    as (_ & _ & _ & _ & Hq & Hz).
  split; [apply error_line_in_report |].
  split; [exact Hq |].
  split; [rewrite error_line_in_report; exact Hz |].
  split; [| split].
  - split; [vm_compute; reflexivity |].
    apply error_line_in_report. vm_compute. reflexivity.
  - apply report_ends_with_separator.
  - intros st <-. reflexivity.
Qed.

Lemma range_check_spec_witness :
  (In error_line (report 3000) <-> 3000 <= 3000)
  /\ (In error_line (report 2999) <-> 3000 <= 2999).
Proof.
  split.
  - apply (range_check_spec 3000). vm_compute. split; discriminate.
  - apply (range_check_spec 2999). vm_compute. split; discriminate.
Defined.

(** ** Display precision *)

Local Open Scope R_scope.

Lemma ln10_pos : 0 < ln 10.
Proof. rewrite <- ln_1. apply ln_increasing; lra. Qed.

Lemma log10_Rinv (y : R) : 0 < y -> log10 (/ y) = - (ln y / ln 10).
Proof.
  intros Hy. unfold log10, Rlog. rewrite ln_Rinv by exact Hy.
  pose proof ln10_pos. field. lra.
Qed.

(** Bounds on a logarithm from a comparison of powers. *)
Lemma ln_pow_lower (y : R) (p q : nat) :
  0 < y -> 10 ^ p < y ^ q -> INR p * ln 10 < INR q * ln y.
Proof.
  intros Hy H. rewrite <- !ln_pow by lra.
  apply ln_increasing; [apply pow_lt; lra | exact H].
Qed.

Lemma ln_pow_upper (y : R) (p q : nat) :
  0 < y -> y ^ q < 10 ^ p -> INR q * ln y < INR p * ln 10.
Proof.
  intros Hy H. rewrite <- !ln_pow by lra.
  apply ln_increasing; [apply pow_lt; lra | exact H].
Qed.

(** The logarithm of a number between 10^(-7/4) and 10^(-5/4). *)
Lemma log10_Rinv_range (y : R) :
  0 < y -> 10 ^ 5 < y ^ 4 -> y ^ 4 < 10 ^ 7 ->
  - (7 / 4) < log10 (/ y) < - (5 / 4).
Proof.
  intros Hy Hlo Hhi. rewrite (log10_Rinv y Hy).
  pose proof ln10_pos as H10.
  pose proof (ln_pow_lower y 5 4 Hy Hlo) as Hl.
  pose proof (ln_pow_upper y 7 4 Hy Hhi) as Hu.
  cbn [INR] in Hl, Hu.
  assert (Hq : 5 / 4 < ln y / ln 10 < 7 / 4).
  { split.
    - apply (Rmult_lt_reg_r (ln 10)); [exact H10 |].
      unfold Rdiv at 2. rewrite Rmult_assoc, Rinv_l by lra. lra.
    - apply (Rmult_lt_reg_r (ln 10)); [exact H10 |].
      unfold Rdiv at 1. rewrite Rmult_assoc, Rinv_l by lra. lra. }
  lra.
Qed.

(** ceil(abs(r)) for r between -2 and -1. *)
Lemma Zceil_Rabs_2 (r : R) : -2 <= r < -1 -> Zceil (Rabs r) = 2%Z.
Proof.
  intros Hr. rewrite Rabs_left by lra.
  apply Zceil_eq. lra.
Qed.

(** The argument of [numberOfDecimalsNeeded] on line 184: 1/50 rounded
    to a float. *)
Lemma smallest_number_value :
  SF2R (fdiv (float_of_Z 1) maxImpulsesPerSecond) = / (536870912 / 10737418).
Proof.
  assert (E : SF2Q (fdiv (float_of_Z 1) maxImpulsesPerSecond)
              = (10737418 # 536870912)%Q) by (vm_compute; reflexivity).
  unfold SF2R. rewrite E. unfold Q2R. cbn [Qnum Qden]. field.
Qed.

Lemma smallest_number_log10 :
  - (7 / 4) < log10 (SF2R (fdiv (float_of_Z 1) maxImpulsesPerSecond)) < - (5 / 4).
Proof.
  rewrite smallest_number_value. apply log10_Rinv_range; lra.
Qed.

(** C6.  [maxImpulsesPerSecond] is the float 50, which is
    (1000 / debounceDelayMillis) * 0.5 without rounding.  The number of
    decimals loop() prints is ceil(abs(log10(x))) for [x] the float
    nearest 1/50, and is 2; it is 2 as well for any approximation of
    that logarithm that is off by at most 1/4, and for the logarithm
    of 1/50 itself. *)
Theorem displayedDecimals_value :
  (maxImpulsesPerSecond = float_of_Z 50
   /\ (SF2Q maxImpulsesPerSecond == (1000 / inject_Z debounceDelayMillis) * (1 # 2))%Q)
  /\ displayedDecimals
     = Zceil (Rabs (log10 (SF2R (fdiv (float_of_Z 1) maxImpulsesPerSecond))))
  /\ displayedDecimals = 2%Z
  /\ (forall r : R,
        Rabs (r - log10 (SF2R (fdiv (float_of_Z 1) maxImpulsesPerSecond))) <= 1 / 4 ->
        Zceil (Rabs r) = 2%Z)
  /\ Zceil (Rabs (log10 (1 / 50))) = 2%Z.
Proof.
  pose proof smallest_number_log10 as Hlog.
  split; [split; vm_compute; reflexivity |].
  split; [reflexivity |].
  split; [| split].
  - unfold displayedDecimals, numberOfDecimalsNeeded. apply Zceil_Rabs_2. lra.
  - intros r Hr. apply Zceil_Rabs_2.
    unfold Rabs in Hr. destruct (Rcase_abs _) in Hr; lra.
  - replace (1 / 50) with (/ 50) by lra.
    pose proof (log10_Rinv_range 50 ltac:(lra) ltac:(lra) ltac:(lra)).
    apply Zceil_Rabs_2. lra.
Qed.

Local Close Scope R_scope.

(** * Further properties of the sketch *)

(** ** The handler called twice *)

(** X7.  millis() does not advance while the handler runs, and two edges
    may be served at the same clock reading: the second call at a
    reading changes nothing, whether the first one counted or not. *)
Theorem countPulse_idempotent (time : Z) (st : state) :
  countPulse time (countPulse time st) = countPulse time st.
Proof.
  destruct (accepted time (lastPulse st)) eqn:E.
  - apply countPulse_discard.
    rewrite (countPulse_accept _ _ E). cbn [lastPulse].
    apply accepted_false_iff. unfold timeSinceLastPulse.
    rewrite Z.leb_refl, Z.sub_diag. vm_compute. discriminate.
  - now rewrite !(countPulse_discard _ _ E).
Qed.

(** X4.  On clock readings, lines 132-140 compute without overflow of
    [unsigned long]: the result is [time - last] where the clock has not
    overflowed since [last] and [(ULONG_MAX - last) + time] where it
    has, and is a clock value itself.  In the first case it is the
    number of ticks the clock has made since [last], in the second case
    one tick less. *)
Theorem timeSinceLastPulse_accuracy (time last : Z) :
  is_ulong time -> is_ulong last ->
  timeSinceLastPulse time last
  = (if last <=? time then time - last else (ULONG_MAX - last) + time)
  /\ is_ulong (timeSinceLastPulse time last)
  /\ timeSinceLastPulse time last
     = ticks_between last time - (if last <=? time then 0 else 1).
Proof.
  intros Ht Hl. destruct (last <=? time) eqn:E.
  - apply Z.leb_le in E.
    rewrite <- (timeSinceLastPulse_forward_exact _ _ Ht Hl E).
    rewrite (timeSinceLastPulse_forward _ _ Ht Hl E).
    unfold is_ulong in *. repeat split; lia.
  - apply Z.leb_gt in E.
    rewrite (timeSinceLastPulse_wrapped_short _ _ Ht Hl E).
    rewrite <- (timeSinceLastPulse_wrapped_short _ _ Ht Hl E).
    rewrite (timeSinceLastPulse_wrapped _ _ Ht Hl E).
    unfold is_ulong in *. repeat split; lia.
Qed.

Lemma timeSinceLastPulse_accuracy_witness :
  timeSinceLastPulse 3 ULONG_MAX
  = (if ULONG_MAX <=? 3 then 3 - ULONG_MAX else (ULONG_MAX - ULONG_MAX) + 3)
  /\ is_ulong (timeSinceLastPulse 3 ULONG_MAX)
  /\ timeSinceLastPulse 3 ULONG_MAX
     = ticks_between ULONG_MAX 3 - (if ULONG_MAX <=? 3 then 0 else 1).
Proof.
  apply (timeSinceLastPulse_accuracy 3 ULONG_MAX);
    vm_compute; split; discriminate.
Defined.

(** ** Bounces *)

Lemma deliver_app (Ts1 Ts2 : list Z) (st : state) :
  deliver (Ts1 ++ Ts2) st = deliver Ts2 (deliver Ts1 st).
Proof. apply fold_left_app. Qed.

(** Edges that all come within the debounce interval of the uptime
    [lastPulse] was read at leave the state as it is. *)
Lemma deliver_close (Ds : list Z) (T0 : Z) (st : state) :
  lastPulse st = millis T0 ->
  Forall (fun D => T0 <= D <= T0 + debounceDelayMillis) Ds ->
  deliver Ds st = st /\ pulses (lastPulse st) Ds = [].
Proof.
  intros H0 Hc. induction Hc as [| D Ds HD _ IH]; [now split |].
  assert (E : accepted (millis D) (lastPulse st) = false)
    by (rewrite H0; now apply close_discarded).
  rewrite deliver_cons, (isr_discard _ _ E). cbn [pulses]. now rewrite E.
Qed.

(** X6.  A discarded edge does not restart the debounce interval: line
    145 is not reached.  After any number of edges within
    [debounceDelayMillis] of the pulse accepted last (at uptime [T0]),
    all of them discarded, an edge strictly more than
    [debounceDelayMillis] after [T0] is accepted and counted, if the
    clock has not overflowed since [T0]. *)
Theorem bounces_do_not_postpone (T0 T : Z) (Ds : list Z) (st : state) :
  lastPulse st = millis T0 ->
  Forall (fun D => T0 <= D <= T0 + debounceDelayMillis) Ds ->
  apart T0 T ->
  epoch T = epoch T0 ->
  deliver Ds st = st
  /\ pulses (lastPulse st) (Ds ++ [T]) = [T]
  /\ pulseCount (deliver (Ds ++ [T]) st) = wrap16 (pulseCount st + 1)
  /\ lastPulse (deliver (Ds ++ [T]) st) = millis T.
Proof.
  intros H0 Hc Ha He.
  destruct (deliver_close Ds T0 st H0 Hc) as [Hd Hp].
  assert (E : accepted (millis T) (lastPulse st) = true)
    by (rewrite H0; now apply accepted_same_epoch).
  split; [exact Hd |]. split; [| split].
  - clear Hd Hp. induction Hc as [| D Ds HD _ IH].
    + cbn [app pulses]. now rewrite E.
    + cbn [app pulses].
      assert (ED : accepted (millis D) (lastPulse st) = false)
        by (rewrite H0; now apply close_discarded).
      now rewrite ED.
  - rewrite deliver_app, Hd. cbn. now apply isr_accept_pulseCount.
  - rewrite deliver_app, Hd. cbn. now apply isr_accept_lastPulse.
Qed.

Lemma bounces_do_not_postpone_witness :
  let st := deliver [100] (run [Step ResetCount; Step EnableInterrupts] (setup boot)) in
  deliver [101; 104; 109; 110] st = st
  /\ pulses (lastPulse st) ([101; 104; 109; 110] ++ [111]) = [111]
  /\ pulseCount (deliver ([101; 104; 109; 110] ++ [111]) st) = wrap16 (pulseCount st + 1)
  /\ lastPulse (deliver ([101; 104; 109; 110] ++ [111]) st) = millis 111.
Proof.
  apply (bounces_do_not_postpone 100 111 [101; 104; 109; 110]).
  - reflexivity.
  - repeat constructor; cbn; discriminate.
  - reflexivity.
  - reflexivity.
Defined.

(** ** Invariants of the state *)

Lemma countPulse_wellformed (time : Z) (st : state) :
  is_ulong time -> wellformed st -> wellformed (countPulse time st).
Proof.
  intros Ht H.
  destruct (accepted time (lastPulse st)) eqn:E.
  - destruct H as (Hc & Hl & Hled & Hpin).
    rewrite (countPulse_accept _ _ E). unfold wellformed. cbn.
    split; [apply wrap16_range |]. split; [exact Ht |].
    split; [apply (toggle_flips _ Hled) | reflexivity].
  - now rewrite (countPulse_discard _ _ E).
Qed.

Lemma exec_wellformed (e : event) (st : state) :
  wellformed st -> wellformed (exec e st).
Proof.
  intros H. destruct e as [s | T].
  - destruct H as (Hc & Hl & Hled & Hpin).
    destruct s; unfold wellformed; cbn;
      (split; [| split; [exact Hl | split; [exact Hled | exact Hpin]]]);
      try exact Hc.
    unfold is_uint, UINT_MAX. lia.
  - cbn. destruct (interruptsOn st); [| exact H].
    apply countPulse_wellformed; [apply millis_range | exact H].
Qed.

(** X2.  Whatever the main program and the sensor do after setup(), in
    whatever order: [pulseCount] and [lastPulse] stay in the range of
    their types, [ledState] is LOW or HIGH, and the LED pin shows
    [ledState]. *)
Theorem reachable_wellformed (tr : list event) :
  wellformed (run tr (setup boot)).
Proof.
  assert (H : forall st, wellformed st -> wellformed (run tr st)).
  { induction tr as [| e tr IH]; intros st Hst; [exact Hst |].
    apply (IH (exec e st)), exec_wellformed, Hst. }
  apply H. unfold wellformed, is_uint, is_ulong, UINT_MAX, ULONG_MAX. cbn.
  split; [lia |]. split; [lia |]. split; [now left | reflexivity].
Qed.

Lemma toggle_toggle (led : Z) : led = LOW \/ led = HIGH -> toggle (toggle led) = led.
Proof. intros [-> | ->]; reflexivity. Qed.

(** X3.  The LED tells the parity of the pulses: after the handler has
    run on any edges, [ledState] is what it was if an even number of
    them was accepted and the other level if an odd number was, and a
    pin that showed [ledState] before still does. *)
Theorem led_shows_parity (Ts : list Z) (st : state) :
  ledState st = LOW \/ ledState st = HIGH ->
  ledPin st = ledState st ->
  ledState (deliver Ts st)
  = (if Nat.even (List.length (pulses (lastPulse st) Ts))
     then ledState st
     else toggle (ledState st))
  /\ ledPin (deliver Ts st) = ledState (deliver Ts st).
Proof.
  revert st. induction Ts as [| T Ts IH]; intros st Hled Hpin; [now split |].
  rewrite deliver_cons. cbn [pulses].
  destruct (accepted (millis T) (lastPulse st)) eqn:E.
  - assert (Hst : isr T st
                  = {| pulseCount := wrap16 (pulseCount st + 1);
                       lastPulse := millis T;
                       ledState := toggle (ledState st);
                       ledPin := toggle (ledState st);
                       interruptsOn := interruptsOn st;
                       serial := serial st |})
      by (apply countPulse_accept, E).
    destruct (IH (isr T st)) as [IHled IHpin].
    + rewrite Hst. cbn. apply (toggle_flips _ Hled).
    + rewrite Hst. reflexivity.
    + split; [| exact IHpin].
      rewrite IHled, Hst. cbn [lastPulse ledState List.length].
      rewrite Nat.even_succ, <- Nat.negb_even.
      destruct (Nat.even (List.length (pulses (millis T) Ts))); cbn [negb];
        [reflexivity |].
      now apply toggle_toggle.
  - rewrite (isr_discard _ _ E). now apply IH.
Qed.

Lemma led_shows_parity_witness :
  let st := run [Step ResetCount; Step EnableInterrupts] (setup boot) in
  ledState (deliver [20; 25; 40; 70] st)
  = (if Nat.even (List.length (pulses (lastPulse st) [20; 25; 40; 70]))
     then ledState st
     else toggle (ledState st))
  /\ ledPin (deliver [20; 25; 40; 70] st) = ledState (deliver [20; 25; 40; 70] st).
Proof.
  apply (led_shows_parity [20; 25; 40; 70]).
  - left. reflexivity.
  - reflexivity.
Defined.

(** ** The tally of a window *)

Lemma deliver_lastPulse_after (Ts : list Z) : forall (st : state),
  lastPulse (deliver Ts st) = lastPulse_after (lastPulse st) Ts.
Proof.
  unfold lastPulse_after.
  induction Ts as [| T Ts IH]; intros st; [reflexivity |].
  rewrite deliver_cons. cbn [pulses].
  destruct (accepted (millis T) (lastPulse st)) eqn:E.
  - cbn [map]. rewrite last_cons, IH. now rewrite (isr_accept_lastPulse _ _ E).
  - rewrite (isr_discard _ _ E). apply IH.
Qed.





(** ** Passes of loop() in a row *)

Lemma loop_disarmed (w : list Z) (st : state) :
  interruptsOn st = false ->
  loop w st
  = exec_stmt Report
      (set_interrupts false
         (deliver w (set_interrupts true (set_pulseCount 0 st)))).
Proof. intros H. unfold loop. now rewrite run_cycle. Qed.

Lemma loop_outcome (w : list Z) (st : state) :
  interruptsOn st = false ->
  pulseCount (loop w st) = wrap16 (Z.of_nat (List.length (pulses (lastPulse st) w)))
  /\ lastPulse (loop w st) = lastPulse_after (lastPulse st) w
  /\ interruptsOn (loop w st) = false
  /\ serial (loop w st) = serial st ++ report (pulseCount (loop w st)).
Proof.
  intros H. rewrite (loop_disarmed w st H).
  set (arm := set_interrupts true (set_pulseCount 0 st)).
  assert (Hc : pulseCount (deliver w arm)
               = wrap16 (Z.of_nat (List.length (pulses (lastPulse st) w)))).
  { rewrite deliver_pulseCount by (cbn; unfold is_uint, UINT_MAX; lia).
    reflexivity. }
  cbn. rewrite Hc, (deliver_lastPulse_after w arm).
  destruct (deliver_frame w arm) as [_ ->].
  repeat split.
Qed.

(** X5.  loop() called again and again from a state with interrupts
    disabled, each pass with the edges the handler runs on in its
    window: the serial log grows by one report per pass, each showing
    the tally of its own window; [pulseCount] restarts at 0 in every
    pass while [lastPulse] is carried over; interrupts are disabled
    again after the last pass. *)
Theorem loops_report_each_window (ws : list (list Z)) (st : state) :
  interruptsOn st = false ->
  serial (loops ws st) = serial st ++ flat_map report (tallies (lastPulse st) ws)
  /\ lastPulse (loops ws st) = fold_left lastPulse_after ws (lastPulse st)
  /\ interruptsOn (loops ws st) = false.
Proof.
  revert st. induction ws as [| w ws IH]; intros st H.
  - cbn. rewrite app_nil_r. repeat split. exact H.
  - change (loops (w :: ws) st) with (loops ws (loop w st)).
    destruct (loop_outcome w st H) as (Hc & Hl & Hi & Hs).
    destruct (IH (loop w st) Hi) as (IHs & IHl & IHi).
    rewrite IHs, IHl, Hs, Hl, Hc. cbn [tallies flat_map fold_left].
    rewrite <- app_assoc. repeat split. exact IHi.
Qed.

Lemma loops_report_each_window_witness :
  let ws := [[20; 25; 40]; [60100; 60105]; []] in
  let st := setup boot in
  serial (loops ws st) = serial st ++ flat_map report (tallies (lastPulse st) ws)
  /\ lastPulse (loops ws st) = fold_left lastPulse_after ws (lastPulse st)
  /\ interruptsOn (loops ws st) = false.
Proof.
  intros ws st.
  apply (loops_report_each_window ws st). reflexivity.
Defined.



(** ** Rates and tallies *)

(** X10.  The rates printed grow with the tally: of two tallies the
    larger one gives the strictly larger pulsesPerSecond and the
    strictly larger pulsesPerMinute, the rounding of the float
    operations notwithstanding. *)
Theorem rates_increasing (c1 c2 : Z) :
  is_uint c1 -> is_uint c2 -> c1 < c2 ->
  (SF2Q (pulsesPerSecond c1) < SF2Q (pulsesPerSecond c2))%Q
  /\ (SF2Q (pulsesPerMinute c1) < SF2Q (pulsesPerMinute c2))%Q.
Proof.
  intros H1 H2 Hlt.
  destruct (rates_ok_spec c1 (rates_ok_uint c1 H1)) as (_ & Hm1 & Hs1 & _).
  destruct (rates_ok_spec c2 (rates_ok_uint c2 H2)) as (_ & Hm2 & Hs2 & _).
  apply Qabs_Qle_condition in Hs1, Hs2.
  change (inject_Z measurementDelaySeconds) with 60%Q in Hs1, Hs2, Hm1, Hm2.
  assert (Ha : (inject_Z c1 + 1 <= inject_Z c2)%Q).
  { change 1%Q with (inject_Z 1). rewrite <- inject_Z_plus, <- Zle_Qle. lia. }
  assert (Hb : (0 <= inject_Z c1)%Q)
    by (change 0%Q with (inject_Z 0); rewrite <- Zle_Qle; apply H1).
  assert (Hc : (inject_Z c1 <= 65535)%Q)
    by (change 65535%Q with (inject_Z 65535); rewrite <- Zle_Qle; apply H1).
  set (a1 := inject_Z c1) in *. set (a2 := inject_Z c2) in *.
  set (p1 := SF2Q (pulsesPerSecond c1)) in *.
  set (p2 := SF2Q (pulsesPerSecond c2)) in *.
  set (m1 := SF2Q (pulsesPerMinute c1)) in *.
  set (m2 := SF2Q (pulsesPerMinute c2)) in *.
  clearbody a1 a2 p1 p2 m1 m2. clear - Hs1 Hs2 Hm1 Hm2 Ha Hb Hc.
  unfold Qdiv in *. change (/ 60)%Q with (1 # 60)%Q in *.
  split; Lqa.lra.
Qed.

Lemma rates_increasing_witness :
  (SF2Q (pulsesPerSecond 2999) < SF2Q (pulsesPerSecond 3000))%Q
  /\ (SF2Q (pulsesPerMinute 2999) < SF2Q (pulsesPerMinute 3000))%Q.
Proof.
  apply (rates_increasing 2999 3000).
  - vm_compute. split; discriminate.
  - vm_compute. split; discriminate.
  - reflexivity.
Defined.
